(** * GsymReader: address-table lookup of the GSYM reader

    A shallow embedding of [include/llvm/DebugInfo/GSYM/GsymReader.h].
    The reader keeps the address table as raw bytes ([ArrayRef<uint8_t>])
    and every accessor is a template over the element type [T] of the
    table, one of [uint8_t], [uint16_t], [uint32_t], [uint64_t].

    Conventions of the embedding:
    - a fixed-width unsigned integer is a [Z]; where the C++ code converts
      to [uint64_t] the wrap-around is written out with [wrap64];
    - [ArrayRef<T>] is the list of its elements; an iterator into it is
      its distance from [begin()], a [Z] (so that [--Iter] on [begin()]
      is representable, as pointer arithmetic does in the compiled code);
    - [Optional<X>] is [option X], [Expected<X>] is a sum with the error
      on the left. *)

From Stdlib Require Import ZArith List Bool Lia Arith.
From Stdlib Require Import Strings.Byte Strings.Ascii.
From Stdlib Require Strings.String.
From Equations Require Import Equations.
Import ListNotations.
Import String.StringSyntax.
Delimit Scope string_scope with string.

Module gsym.

Local Open Scope Z_scope.

(** ** Machine integers *)

Definition UINT64_MAX : Z := 18446744073709551615.

(** Conversion of an integer value to [uint64_t]. *)
Definition wrap64 (x : Z) : Z := x mod (UINT64_MAX + 1).

(** [llvm::support::endianness], restricted to the two concrete orders. *)
Inductive endianness : Type := little | big.

(** The element types the address table is instantiated at. *)
Inductive AddrOffT : Type := UInt8 | UInt16 | UInt32 | UInt64.

Definition sizeof (T : AddrOffT) : nat :=
  match T with
  | UInt8 => 1
  | UInt16 => 2
  | UInt32 => 4
  | UInt64 => 8
  end%nat.

(** Value of a byte string read as a little-endian unsigned integer. *)
Fixpoint le_value (bs : list byte) : Z :=
  match bs with
  | [] => 0
  | b :: rest => Z.of_N (Byte.to_N b) + 256 * le_value rest
  end.

(** An object of [length bs] bytes read in the byte order of the host:
    this is what dereferencing a [const T *] obtained by
    [reinterpret_cast] from the bytes does. *)
Definition load (host : endianness) (bs : list byte) : Z :=
  match host with
  | little => le_value bs
  | big => le_value (rev bs)
  end.

(** ** Data model *)

(** Modelled from the spec: [Header.h] is not among the sources.  Only the
    two fields the accessors of [GsymReader.h] read are kept: the base
    address (unsigned 64-bit) and the address-offset width, which the spec
    constrains to 1, 2, 4 or 8 bytes and which is therefore held as the
    element type it selects. *)
Record Header : Type := {
  BaseAddress : Z;
  AddrOffSize : AddrOffT
}.

(** Modelled from the spec: [FileEntry.h] is not among the sources.  A file
    entry is a pair of string-table offsets (directory, file name), each
    an unsigned 32-bit value. *)
Record FileEntry : Type := {
  Dir : Z;
  Base : Z
}.

(** Modelled from the spec: [StringTable.h] is not among the sources.  A
    string table is a blob of NUL-terminated strings addressed by byte
    offset. *)
Record StringTable : Type := {
  Data : String.string
}.

(** The data members of [class GsymReader] that the accessors read.
    [AddrOffsets] is the address table as bytes, in host byte order
    whichever backing store it points to. *)
Record GsymReader : Type := {
  Endian : endianness;
  Hdr : Header;
  AddrOffsets : list byte;
  AddrInfoOffsets : list Z;
  Files : list FileEntry;
  StrTab : StringTable
}.

(** ** [ArrayRef<T>] views of a byte buffer *)

(** Reading the [k]-th object of type [T] from a buffer of bytes.  The read
    is defined only when all of its [sizeof T] bytes lie inside the
    buffer; [None] is a read past the end. *)
Definition read_at (host : endianness) (T : AddrOffT) (data : list byte)
    (k : nat) : option Z :=
  let chunk := firstn (sizeof T) (skipn (k * sizeof T) data) in
  if (length chunk =? sizeof T)%nat then Some (load host chunk) else None.

(** [ArrayRef<T>(reinterpret_cast<const T *>(data), n)]: the sequence of
    the [n] objects of type [T] that start at [data].  An element whose
    read would leave the buffer has no defined value; the model gives it
    0, and [getAddrOffsets_nth] shows the case does not arise. *)
Definition ArrayRef_cast (host : endianness) (T : AddrOffT)
    (data : list byte) (n : nat) : list Z :=
  map (fun k => match read_at host T data k with
                | Some v => v
                | None => 0
                end) (seq 0 n).

(** [template <class T> ArrayRef<T> getAddrOffsets() const] *)
Definition getAddrOffsets (host : endianness) (T : AddrOffT)
    (r : GsymReader) : list Z :=
  ArrayRef_cast host T (AddrOffsets r)
    (length (AddrOffsets r) / sizeof T)%nat.

(** [AIO[Index]] for an iterator or index inside the array. *)
Definition deref (A : list Z) (i : Z) : Z := nth (Z.to_nat i) A 0.

(** ** Accessors *)

(** [template <class T> Optional<uint64_t> addressForIndex(size_t Index)].
    The sum is computed in [uint64_t]. *)
Definition addressForIndex (host : endianness) (T : AddrOffT)
    (r : GsymReader) (Index : Z) : option Z :=
  let AIO := getAddrOffsets host T r in
  if Index <? Z.of_nat (length AIO)
  then Some (wrap64 (deref AIO Index + BaseAddress (Hdr r)))
  else None.

(** [Optional<FileEntry> getFile(uint32_t Index) const] *)
Definition getFile (r : GsymReader) (Index : Z) : option FileEntry :=
  if Index <? Z.of_nat (length (Files r))
  then nth_error (Files r) (Z.to_nat Index)
  else None.

(** [std::lower_bound] over the range [[first, first + count)] of [A], as
    the standard library implements it: halve the range, keep the half
    that can still hold the first element not less than [value]. *)
Equations? lower_bound_loop (A : list Z) (value : Z) (first count : nat)
    : nat by wf count lt :=
  lower_bound_loop A value first O := first;
  lower_bound_loop A value first (S c)
    with nth (first + Nat.div2 (S c)) A 0 <? value => {
    | true := lower_bound_loop A value (first + Nat.div2 (S c) + 1)
                (S c - (Nat.div2 (S c) + 1));
    | false := lower_bound_loop A value first (Nat.div2 (S c)) }.
Proof.
  all: destruct c as [|n]; simpl; [lia|].
  - destruct (Nat.div2 n + 1)%nat; lia.
  - pose proof (Nat.le_div2_diag_l n); lia.
Qed.

(** [std::lower_bound(AIO.begin(), AIO.end(), value)], as the distance of
    the returned iterator from [begin()]. *)
Definition lower_bound (A : list Z) (value : Z) : Z :=
  Z.of_nat (lower_bound_loop A value 0 (length A)).

(** [template <class T> uint64_t getAddressOffsetIndex(uint64_t AddrOffset)].
    [Begin] is iterator 0 and [End] is iterator [length AIO];
    [std::distance] is a signed difference, converted to the [uint64_t]
    return type. *)
Definition getAddressOffsetIndex (host : endianness) (T : AddrOffT)
    (r : GsymReader) (AddrOffset : Z) : Z :=
  let AIO := getAddrOffsets host T r in
  let Begin := 0 in
  let End := Z.of_nat (length AIO) in
  let Iter := lower_bound AIO AddrOffset in
  let Iter :=
    if (Iter =? End) || (AddrOffset <? deref AIO Iter)
    then Iter - 1
    else Iter in
  wrap64 (Iter - Begin).


(** ** Members declared in the header and defined elsewhere *)

(** Modelled from the spec: [StringTable::operator[]] lives in
    [StringTable.h], which is not among the sources.  The spec gives: the
    NUL-terminated slice starting at the offset; out-of-range or malformed
    offsets give the empty string.  An offset is taken to be malformed when
    no NUL follows it inside the table.  [c_str] is the slice, if any. *)
Fixpoint c_str (s : String.string) : option String.string :=
  match s with
  | String.EmptyString => None
  | String.String c rest =>
      if Ascii.eqb c Ascii.zero then Some String.EmptyString
      else option_map (String.String c) (c_str rest)
  end.

(** The part of a string after its first [n] characters. *)
Fixpoint string_drop (n : nat) (s : String.string) : String.string :=
  match n, s with
  | O, _ => s
  | S n', String.EmptyString => String.EmptyString
  | S n', String.String _ rest => string_drop n' rest
  end.

(** Modelled from the spec: [StrTab[Offset]], see [c_str]. *)
Definition StringTable_at (tab : StringTable) (Offset : Z) : String.string :=
  if Offset <? Z.of_nat (String.length (Data tab))
  then match c_str (string_drop (Z.to_nat Offset) (Data tab)) with
       | Some s => s
       | None => String.EmptyString
       end
  else String.EmptyString.

(** [StringRef getString(uint32_t Offset) const { return StrTab[Offset]; }] *)
Definition getString (r : GsymReader) (Offset : Z) : String.string :=
  StringTable_at (StrTab r) Offset.

(** Modelled from the spec: [getAddress] is declared in the header and
    defined in [GsymReader.cpp], which is not among the sources.  It is
    [addressForIndex] at the width the header configures. *)
Definition getAddress (host : endianness) (r : GsymReader) (Index : Z)
    : option Z :=
  addressForIndex host (AddrOffSize (Hdr r)) r Index.

(** The two ways a lookup of an address fails, after the spec. *)
Inductive LookupError : Type := BelowRange | NotFound.

(** Modelled from the spec: [getAddressIndex] is declared in the header and
    defined in [GsymReader.cpp], which is not among the sources.  After the
    spec: fail with [BelowRange] below the base address; subtract the base
    address; fail with [NotFound] on an empty table or below its first
    entry; otherwise search.  The search is the header's
    [getAddressOffsetIndex] at the width the header configures. *)
Definition getAddressIndex (host : endianness) (r : GsymReader) (Addr : Z)
    : LookupError + Z :=
  let T := AddrOffSize (Hdr r) in
  if Addr <? BaseAddress (Hdr r) then inl BelowRange
  else
    let AddrOffset := Addr - BaseAddress (Hdr r) in
    match getAddrOffsets host T r with
    | [] => inl NotFound
    | first_offset :: _ =>
        if AddrOffset <? first_offset then inl NotFound
        else inr (getAddressOffsetIndex host T r AddrOffset)
    end.

(** ** Predicates and index functions used in the statements *)

(** The address table invariant: offsets are in non-decreasing order. *)
Fixpoint is_sorted (A : list Z) : bool :=
  match A with
  | [] => true
  | x :: rest =>
      match rest with
      | [] => true
      | y :: _ => (x <=? y) && is_sorted rest
      end
  end.

(** No entry repeats: offsets are in strictly increasing order. *)
Fixpoint is_strictly_sorted (A : list Z) : bool :=
  match A with
  | [] => true
  | x :: rest =>
      match rest with
      | [] => true
      | y :: _ => (x <? y) && is_strictly_sorted rest
      end
  end.

(** Smallest index of [A] holding [v] ([length A] when there is none). *)
Fixpoint first_index_of (v : Z) (A : list Z) : nat :=
  match A with
  | [] => O
  | x :: rest => if x =? v then O else S (first_index_of v rest)
  end.

(** Largest index of [A] holding [v], if any. *)
Fixpoint last_index_of (v : Z) (A : list Z) : option nat :=
  match A with
  | [] => None
  | x :: rest =>
      match last_index_of v rest with
      | Some j => Some (S j)
      | None => if x =? v then Some O else None
      end
  end.

(** Every address of the table is representable: the base address is
    non-negative and no [offset + BaseAddress] exceeds [UINT64_MAX]. *)
Definition addresses_fit (host : endianness) (T : AddrOffT)
    (r : GsymReader) : bool :=
  (0 <=? BaseAddress (Hdr r)) &&
  forallb (fun off => off + BaseAddress (Hdr r) <=? UINT64_MAX)
          (getAddrOffsets host T r).

(** The byte size of the address table is a [size_t]. *)
Definition size_fits (r : GsymReader) : bool :=
  Z.of_nat (length (AddrOffsets r)) <=? UINT64_MAX.

(** The smallest index whose entry holds the same offset as entry
    [Index] of the table the header configures. *)
Definition first_sharing (host : endianness) (r : GsymReader) (Index : Z)
    : Z :=
  let AIO := getAddrOffsets host (AddrOffSize (Hdr r)) r in
  Z.of_nat (first_index_of (deref AIO Index) AIO).

(** No character of the string is NUL. *)
Fixpoint nul_free (s : String.string) : bool :=
  match s with
  | String.EmptyString => true
  | String.String c rest => negb (Ascii.eqb c Ascii.zero) && nul_free rest
  end.

(** The table of the spec's scenario: NUL, main, NUL, foo, NUL. *)
Definition scenario_strings : String.string :=
  String.String Ascii.zero
    (String.append "main"%string
      (String.String Ascii.zero
        (String.append "foo"%string
          (String.String Ascii.zero String.EmptyString)))).

(** ** Sample readers *)

Definition mk_reader (base : Z) (T : AddrOffT) (table : list byte)
    : GsymReader :=
  {| Endian := little;
     Hdr := {| BaseAddress := base; AddrOffSize := T |};
     AddrOffsets := table;
     AddrInfoOffsets := [];
     Files := [];
     StrTab := {| Data := String.EmptyString |} |}.

(** Base address 0x1000, 2-byte offsets 0x00, 0x10, 0x50 (little-endian). *)
Definition scenario_reader : GsymReader :=
  {| Endian := little;
     Hdr := {| BaseAddress := 4096; AddrOffSize := UInt16 |};
     AddrOffsets := [x00; x00; x10; x00; x50; x00]%byte;
     AddrInfoOffsets := [100; 200; 300];
     Files := [ {| Dir := 1; Base := 6 |} ];
     StrTab := {| Data := scenario_strings |} |}.

(** One-byte offsets 5, 5, 7: two consecutive entries share a value. *)
Definition dup_reader : GsymReader :=
  mk_reader 0 UInt8 [x05; x05; x07]%byte.

(** Base address [UINT64_MAX] with one-byte offsets 0, 1: the address of
    the second entry wraps around to 0. *)
Definition wrap_reader : GsymReader :=
  mk_reader UINT64_MAX UInt8 [x00; x01]%byte.

(** Seven bytes: three 2-byte elements and one byte left over. *)
Definition ragged_reader : GsymReader :=
  mk_reader 0 UInt16 [x01; x00; x02; x00; x03; x00; xff]%byte.

(** * Properties *)

(** ** Integers and byte strings *)

Lemma sizeof_pos (T : AddrOffT) : (0 < sizeof T)%nat.
Proof. destruct T; simpl; lia. Qed.

Lemma le_value_nonneg (bs : list byte) : 0 <= le_value bs.
Proof.
  induction bs as [|b rest IH]; cbn [le_value]; [lia|].
  pose proof (N2Z.is_nonneg (Byte.to_N b)). lia.
Qed.

Lemma load_nonneg (host : endianness) (bs : list byte) : 0 <= load host bs.
Proof. destruct host; simpl; apply le_value_nonneg. Qed.

Lemma wrap64_small (x : Z) : 0 <= x <= UINT64_MAX -> wrap64 x = x.
Proof.
  intros Hx. unfold wrap64, UINT64_MAX in *. apply Z.mod_small. lia.
Qed.

(** ** The typed view of the address table *)

Lemma ArrayRef_cast_length host T data n :
  length (ArrayRef_cast host T data n) = n.
Proof. unfold ArrayRef_cast. now rewrite length_map, length_seq. Qed.

Lemma ArrayRef_cast_nth host T data n k :
  (k < n)%nat ->
  nth k (ArrayRef_cast host T data n) 0 =
  match read_at host T data k with Some v => v | None => 0 end.
Proof.
  intros Hk. unfold ArrayRef_cast.
  rewrite (nth_indep _ 0
             (match read_at host T data O with Some v => v | None => 0 end))
    by now rewrite length_map, length_seq.
  rewrite (map_nth (fun k => match read_at host T data k with
                             | Some v => v
                             | None => 0
                             end) (seq 0 n) O k).
  now rewrite seq_nth.
Qed.

(** An element index below [size / sizeof T] reads inside the buffer. *)
Lemma read_at_in_bounds host T data k :
  (k < length data / sizeof T)%nat ->
  (k * sizeof T + sizeof T <= length data)%nat /\
  read_at host T data k =
  Some (load host (firstn (sizeof T) (skipn (k * sizeof T) data))).
Proof.
  intros Hk.
  assert (Hin : (k * sizeof T + sizeof T <= length data)%nat).
  { pose proof (Nat.Div0.mul_div_le (length data) (sizeof T)) as Hle.
    pose proof (sizeof_pos T). nia. }
  split; [exact Hin|].
  unfold read_at.
  rewrite length_firstn, length_skipn.
  replace (Nat.min (sizeof T) (length data - k * sizeof T)) with (sizeof T)
    by lia.
  now rewrite Nat.eqb_refl.
Qed.

Lemma getAddrOffsets_length host T r :
  length (getAddrOffsets host T r) =
  (length (AddrOffsets r) / sizeof T)%nat.
Proof. apply ArrayRef_cast_length. Qed.

Lemma getAddrOffsets_nth host T r k :
  (k < length (getAddrOffsets host T r))%nat ->
  read_at host T (AddrOffsets r) k = Some (nth k (getAddrOffsets host T r) 0).
Proof.
  intros Hk. rewrite getAddrOffsets_length in Hk.
  unfold getAddrOffsets. rewrite ArrayRef_cast_nth by exact Hk.
  destruct (read_at_in_bounds host T _ _ Hk) as [_ ->]. reflexivity.
Qed.

Lemma getAddrOffsets_nonneg host T r k :
  0 <= nth k (getAddrOffsets host T r) 0.
Proof.
  destruct (Nat.lt_ge_cases k (length (getAddrOffsets host T r))) as [Hk|Hk].
  - pose proof (getAddrOffsets_nth host T r k Hk) as Hr.
    rewrite getAddrOffsets_length in Hk.
    destruct (read_at_in_bounds host T _ _ Hk) as [_ Hs].
    rewrite Hs in Hr. injection Hr as <-. apply load_nonneg.
  - rewrite nth_overflow by exact Hk. lia.
Qed.

(** Reading element [k] looks at bytes [k * sizeof T] up to
    [k * sizeof T + sizeof T] only. *)
Lemma read_at_firstn host T data m k :
  (k * sizeof T + sizeof T <= m)%nat ->
  read_at host T (firstn m data) k = read_at host T data k.
Proof.
  intros Hm. unfold read_at.
  rewrite skipn_firstn_comm, firstn_firstn.
  now replace (Nat.min (sizeof T) (m - k * sizeof T)) with (sizeof T) by lia.
Qed.

(** ** Sorted tables *)

Lemma is_sorted_tail x rest : is_sorted (x :: rest) = true -> is_sorted rest = true.
Proof.
  destruct rest as [|y rest']; [reflexivity|].
  cbn [is_sorted]. intros H. apply andb_prop in H. tauto.
Qed.

Lemma is_sorted_head_le x rest j :
  is_sorted (x :: rest) = true -> (j < length rest)%nat -> x <= nth j rest 0.
Proof.
  revert x j. induction rest as [|y rest' IH]; intros x j Hs Hj.
  - simpl in Hj. lia.
  - cbn [is_sorted] in Hs. apply andb_prop in Hs. destruct Hs as [Hxy Hs].
    apply Z.leb_le in Hxy.
    destruct j as [|j']; [exact Hxy|].
    cbn [nth]. simpl in Hj.
    specialize (IH y j' Hs ltac:(lia)). lia.
Qed.

(** The boolean invariant gives the order between any two positions. *)
Lemma is_sorted_nth A i j :
  is_sorted A = true -> (i <= j < length A)%nat -> nth i A 0 <= nth j A 0.
Proof.
  revert i j. induction A as [|x rest IH]; intros i j Hs Hij.
  - simpl in Hij. lia.
  - destruct i as [|i'], j as [|j']; cbn [nth]; simpl in Hij; try lia.
    + apply (is_sorted_head_le x rest j' Hs). lia.
    + apply IH; [exact (is_sorted_tail _ _ Hs) | lia].
Qed.

Lemma is_strictly_sorted_cons x y rest :
  is_strictly_sorted (x :: y :: rest) =
  (x <? y) && is_strictly_sorted (y :: rest).
Proof. reflexivity. Qed.

Lemma is_sorted_cons x y rest :
  is_sorted (x :: y :: rest) = (x <=? y) && is_sorted (y :: rest).
Proof. reflexivity. Qed.

Lemma is_strictly_sorted_sorted A :
  is_strictly_sorted A = true -> is_sorted A = true.
Proof.
  induction A as [|x rest IH]; [reflexivity|].
  destruct rest as [|y rest']; [reflexivity|].
  rewrite is_strictly_sorted_cons, is_sorted_cons. intros H.
  apply andb_prop in H. destruct H as [Hxy Hs].
  apply Z.ltb_lt in Hxy.
  apply andb_true_intro. split; [apply Z.leb_le; lia | exact (IH Hs)].
Qed.

Lemma is_strictly_sorted_nth A i j :
  is_strictly_sorted A = true -> (i < j < length A)%nat ->
  nth i A 0 < nth j A 0.
Proof.
  revert i j. induction A as [|x rest IH]; intros i j Hs Hij.
  - simpl in Hij. lia.
  - destruct rest as [|y rest']; [simpl in Hij; lia|].
    rewrite is_strictly_sorted_cons in Hs. apply andb_prop in Hs.
    destruct Hs as [Hxy Hs]. apply Z.ltb_lt in Hxy.
    destruct j as [|j']; [lia|].
    change (nth (S j') (x :: y :: rest') 0) with (nth j' (y :: rest') 0).
    assert (Hj' : (j' < length (y :: rest'))%nat) by (simpl in *; lia).
    destruct i as [|i'].
    + pose proof (is_sorted_nth (y :: rest') O j'
                    (is_strictly_sorted_sorted _ Hs) ltac:(lia)) as Hle.
      change (nth 0 (x :: y :: rest') 0) with x.
      change (nth 0 (y :: rest') 0) with y in Hle. lia.
    + change (nth (S i') (x :: y :: rest') 0) with (nth i' (y :: rest') 0).
      apply IH; [exact Hs | lia].
Qed.

(** ** [std::lower_bound] on a sorted table *)

(** Loop invariant: left of [first] everything is below [value], right of
    [first + count] nothing is. *)
Lemma lower_bound_loop_spec A value first count :
  is_sorted A = true ->
  (first + count <= length A)%nat ->
  (forall j, (j < first)%nat -> nth j A 0 < value) ->
  (forall j, (first + count <= j < length A)%nat -> value <= nth j A 0) ->
  (first <= lower_bound_loop A value first count <= first + count)%nat /\
  (forall j, (j < lower_bound_loop A value first count)%nat ->
             nth j A 0 < value) /\
  (forall j, (lower_bound_loop A value first count <= j < length A)%nat ->
             value <= nth j A 0).
Proof.
  funelim (lower_bound_loop A value first count); intros Hs Hlen Hlo Hhi.
  - rewrite Nat.add_0_r in Hhi.
    split; [lia | split; assumption].
  - clear Heqcall.
    pose proof (Nat.lt_div2 (S c) ltac:(lia)) as Hhalf.
    apply Z.ltb_lt in Heq.
    destruct H as (Hr & Hb & Ha); try assumption.
    + lia.
    + intros j Hj.
      pose proof (is_sorted_nth A j (first + Nat.div2 (S c)) Hs ltac:(lia)).
      lia.
    + intros j Hj. apply Hhi. lia.
    + split; [|split; assumption].
      revert Hr Hhalf. generalize (Nat.div2 (S c)).
      intros h Hr Hhalf. lia.
  - clear Heqcall.
    pose proof (Nat.lt_div2 (S c) ltac:(lia)) as Hhalf.
    apply Z.ltb_ge in Heq.
    destruct H as (Hr & Hb & Ha); try assumption.
    + lia.
    + intros j Hj.
      pose proof (is_sorted_nth A (first + Nat.div2 (S c)) j Hs ltac:(lia)).
      lia.
    + split; [|split; assumption].
      revert Hr Hhalf. generalize (Nat.div2 (S c)).
      intros h Hr Hhalf. lia.
Qed.

(** On a sorted table [std::lower_bound] splits the table into the entries
    below [value] and the entries not below it. *)
Lemma lower_bound_spec A value :
  is_sorted A = true ->
  0 <= lower_bound A value <= Z.of_nat (length A) /\
  (forall j, Z.of_nat j < lower_bound A value -> nth j A 0 < value) /\
  (forall j, lower_bound A value <= Z.of_nat j < Z.of_nat (length A) ->
             value <= nth j A 0).
Proof.
  intros Hs. unfold lower_bound.
  destruct (lower_bound_loop_spec A value 0 (length A) Hs) as (Hr & Hb & Ha).
  - lia.
  - intros j Hj. lia.
  - intros j Hj. lia.
  - split; [lia|]. split; intros j Hj; [apply Hb | apply Ha]; lia.
Qed.

Lemma first_index_of_unique v A k :
  (k < length A)%nat -> nth k A 0 = v ->
  (forall j, (j < k)%nat -> nth j A 0 <> v) ->
  first_index_of v A = k.
Proof.
  revert k. induction A as [|x rest IH]; intros k Hk Hv Hmin.
  - simpl in Hk. lia.
  - cbn [first_index_of]. destruct k as [|k'].
    + cbn [nth] in Hv. subst x. now rewrite Z.eqb_refl.
    + destruct (Z.eqb_spec x v) as [Heq|Hne].
      * exfalso. apply (Hmin O); [lia | exact Heq].
      * f_equal. apply IH.
        -- simpl in Hk. lia.
        -- exact Hv.
        -- intros j Hj. apply (Hmin (S j)). lia.
Qed.

Lemma table_length_fits host T r :
  size_fits r = true ->
  Z.of_nat (length (getAddrOffsets host T r)) <= UINT64_MAX.
Proof.
  unfold size_fits. intros H. apply Z.leb_le in H.
  rewrite getAddrOffsets_length.
  pose proof (Nat.Div0.mul_div_le (length (AddrOffsets r)) (sizeof T)).
  pose proof (sizeof_pos T). nia.
Qed.

(** ** [getAddressOffsetIndex] on a sorted table *)

Section Search.

Variables (host : endianness) (T : AddrOffT) (r : GsymReader).

Let AIO := getAddrOffsets host T r.

Hypothesis Hsorted : is_sorted AIO = true.

(** Empty table or query below the first entry: [--Iter] leaves the
    table through its front and the distance is -1. *)
Lemma getAddressOffsetIndex_underflow AddrOffset :
  AIO = [] \/ AddrOffset < nth 0 AIO 0 ->
  getAddressOffsetIndex host T r AddrOffset = UINT64_MAX.
Proof.
  intros Hcase. unfold getAddressOffsetIndex. fold AIO.
  destruct (lower_bound_spec AIO AddrOffset Hsorted) as (Hr & Hb & Ha).
  assert (Hlb : lower_bound AIO AddrOffset = 0).
  { destruct Hcase as [Hnil|Hlt].
    - assert (length AIO = O) by (rewrite Hnil; reflexivity). lia.
    - destruct (Z.eq_dec (lower_bound AIO AddrOffset) 0) as [|Hne];
        [assumption|].
      specialize (Hb O ltac:(lia)). lia. }
  rewrite Hlb.
  assert (Hdec : (0 =? Z.of_nat (length AIO)) ||
                 (AddrOffset <? deref AIO 0) = true).
  { destruct Hcase as [Hnil|Hlt].
    - rewrite Hnil. reflexivity.
    - apply orb_true_intro. right. apply Z.ltb_lt. exact Hlt. }
  rewrite Hdec. reflexivity.
Qed.

Hypothesis Hsize : size_fits r = true.

(** A query equal to a stored offset stops at the first entry holding
    it; no step back is taken. *)
Lemma getAddressOffsetIndex_exact i :
  (i < length AIO)%nat ->
  getAddressOffsetIndex host T r (nth i AIO 0) =
  Z.of_nat (first_index_of (nth i AIO 0) AIO).
Proof.
  intros Hi. unfold getAddressOffsetIndex. fold AIO.
  set (v := nth i AIO 0).
  destruct (lower_bound_spec AIO v Hsorted) as (Hr & Hb & Ha).
  pose proof (table_length_fits host T r Hsize) as Hfit. fold AIO in Hfit.
  assert (Hle : lower_bound AIO v <= Z.of_nat i).
  { destruct (Z.le_gt_cases (lower_bound AIO v) (Z.of_nat i)) as [|Hgt];
      [assumption|].
    specialize (Hb i ltac:(lia)). unfold v in Hb. lia. }
  set (k := Z.to_nat (lower_bound AIO v)).
  assert (Hk : lower_bound AIO v = Z.of_nat k) by (unfold k; lia).
  assert (Hkv : nth k AIO 0 = v).
  { pose proof (Ha k ltac:(lia)) as H1.
    pose proof (is_sorted_nth AIO k i Hsorted ltac:(lia)) as H2.
    fold v in H2. lia. }
  assert (Hfirst : first_index_of v AIO = k).
  { apply first_index_of_unique; [lia | exact Hkv |].
    intros j Hj. specialize (Hb j ltac:(lia)). lia. }
  rewrite Hfirst.
  replace (lower_bound AIO v =? Z.of_nat (length AIO)) with false
    by (symmetry; apply Z.eqb_neq; lia).
  unfold deref. fold k. rewrite Hkv, Z.ltb_irrefl. cbn [orb].
  rewrite Z.sub_0_r, Hk. apply wrap64_small. lia.
Qed.

(** A query strictly between two neighbouring entries steps back to the
    lower one. *)
Lemma getAddressOffsetIndex_between i AddrOffset :
  (S i < length AIO)%nat ->
  nth i AIO 0 < AddrOffset < nth (S i) AIO 0 ->
  getAddressOffsetIndex host T r AddrOffset = Z.of_nat i.
Proof.
  intros Hi Hv. unfold getAddressOffsetIndex. fold AIO.
  destruct (lower_bound_spec AIO AddrOffset Hsorted) as (Hr & Hb & Ha).
  pose proof (table_length_fits host T r Hsize) as Hfit. fold AIO in Hfit.
  assert (Hlb : lower_bound AIO AddrOffset = Z.of_nat (S i)).
  { destruct (Z.lt_trichotomy (lower_bound AIO AddrOffset)
                (Z.of_nat (S i))) as [Hlt|[Heq|Hgt]].
    - specialize (Ha i ltac:(lia)). lia.
    - exact Heq.
    - specialize (Hb (S i) ltac:(lia)). lia. }
  rewrite Hlb.
  replace (Z.of_nat (S i) =? Z.of_nat (length AIO)) with false
    by (symmetry; apply Z.eqb_neq; lia).
  unfold deref. rewrite Nat2Z.id.
  replace (AddrOffset <? nth (S i) AIO 0) with true
    by (symmetry; apply Z.ltb_lt; lia).
  cbn [orb]. rewrite wrap64_small; lia.
Qed.

(** A query above the last entry lands on [End] and steps back to the
    last entry. *)
Lemma getAddressOffsetIndex_above_last last AddrOffset :
  length AIO = S last ->
  nth last AIO 0 < AddrOffset ->
  getAddressOffsetIndex host T r AddrOffset = Z.of_nat last.
Proof.
  intros Hlast Hv. unfold getAddressOffsetIndex. fold AIO.
  destruct (lower_bound_spec AIO AddrOffset Hsorted) as (Hr & Hb & Ha).
  pose proof (table_length_fits host T r Hsize) as Hfit. fold AIO in Hfit.
  assert (Hlb : lower_bound AIO AddrOffset = Z.of_nat (length AIO)).
  { destruct (Z.eq_dec (lower_bound AIO AddrOffset)
                (Z.of_nat (length AIO))) as [|Hne]; [assumption|].
    specialize (Ha last ltac:(lia)). lia. }
  rewrite Hlb, Z.eqb_refl. cbn [orb].
  rewrite wrap64_small; lia.
Qed.

End Search.

(** ** The typed view never leaves the byte array *)

(** C10.  For each element type [T] and each byte array,
    [getAddrOffsets<T>] has exactly [size / sizeof(T)] elements (rounded
    down); each of them is read from [sizeof(T)] bytes that lie inside the
    byte array; and the elements are those of the first
    [(size / sizeof(T)) * sizeof(T)] bytes, so that bytes left over at the
    end are ignored. *)
Theorem getAddrOffsets_floor (host : endianness) (T : AddrOffT)
    (r : GsymReader) :
  let n := (length (AddrOffsets r) / sizeof T)%nat in
  length (getAddrOffsets host T r) = n /\
  (forall k, (k < n)%nat ->
     (k * sizeof T + sizeof T <= length (AddrOffsets r))%nat /\
     read_at host T (AddrOffsets r) k =
     Some (nth k (getAddrOffsets host T r) 0)) /\
  ArrayRef_cast host T (firstn (n * sizeof T) (AddrOffsets r)) n =
  getAddrOffsets host T r.
Proof.
  intros n. split; [apply getAddrOffsets_length|]. split.
  - intros k Hk. split.
    + exact (proj1 (read_at_in_bounds host T _ k Hk)).
    + apply getAddrOffsets_nth. now rewrite getAddrOffsets_length.
  - unfold getAddrOffsets, ArrayRef_cast. fold n.
    apply map_ext_in. intros k Hk. apply in_seq in Hk.
    rewrite read_at_firstn; [reflexivity|].
    pose proof (sizeof_pos T). nia.
Qed.

Lemma getAddrOffsets_floor_witness :
  length (getAddrOffsets little UInt16 ragged_reader) = 3%nat /\
  read_at little UInt16 (AddrOffsets ragged_reader) 2 = Some 3.
Proof.
  destruct (getAddrOffsets_floor little UInt16 ragged_reader)
    as (Hlen & Hread & _).
  split; [exact Hlen|].
  exact (proj2 (Hread 2%nat ltac:(vm_compute; lia))).
Defined.

(** ** [addressForIndex] *)

(** C6.  For an index below the table length, [addressForIndex<T>] returns
    the base address plus the offset stored at that index, the offset
    being the [sizeof(T)] bytes at byte position [Index * sizeof(T)] of the
    table read as one unsigned integer, and the sum being a [uint64_t]
    (it is the exact sum whenever that does not exceed [UINT64_MAX]); for
    an index at or above the table length it returns [None]. *)
Theorem addressForIndex_spec (host : endianness) (T : AddrOffT)
    (r : GsymReader) (Index : Z) :
  0 <= Index ->
  let size := Z.of_nat (length (AddrOffsets r) / sizeof T) in
  (Index < size ->
     exists raw,
       read_at host T (AddrOffsets r) (Z.to_nat Index) = Some raw /\
       addressForIndex host T r Index =
       Some (wrap64 (raw + BaseAddress (Hdr r))) /\
       (0 <= BaseAddress (Hdr r) ->
        raw + BaseAddress (Hdr r) <= UINT64_MAX ->
        addressForIndex host T r Index =
        Some (BaseAddress (Hdr r) + raw))) /\
  (size <= Index -> addressForIndex host T r Index = None).
Proof.
  intros Hnn size. unfold addressForIndex.
  rewrite getAddrOffsets_length. fold size. split.
  - intros Hlt. exists (nth (Z.to_nat Index) (getAddrOffsets host T r) 0).
    replace (Index <? size) with true by (symmetry; apply Z.ltb_lt; lia).
    split; [|split].
    + apply getAddrOffsets_nth. rewrite getAddrOffsets_length.
      unfold size in Hlt. lia.
    + reflexivity.
    + intros Hbase Hfit. unfold deref. rewrite wrap64_small.
      * f_equal. lia.
      * pose proof (getAddrOffsets_nonneg host T r (Z.to_nat Index)). lia.
  - intros Hge.
    now replace (Index <? size) with false by (symmetry; apply Z.ltb_ge; lia).
Qed.

Lemma addressForIndex_spec_witness :
  addressForIndex little UInt16 scenario_reader 1 = Some (4096 + 16) /\
  addressForIndex little UInt16 scenario_reader 3 = None.
Proof.
  destruct (addressForIndex_spec little UInt16 scenario_reader 1
              ltac:(lia)) as [Hin _].
  destruct (Hin ltac:(vm_compute; reflexivity)) as (raw & Hraw & _ & Hsum).
  vm_compute in Hraw. injection Hraw as <-.
  split.
  - apply Hsum; vm_compute; discriminate.
  - apply (addressForIndex_spec little UInt16 scenario_reader 3 ltac:(lia)).
    vm_compute. discriminate.
Defined.

(** ** [getFile] *)

(** C9.  [getFile] returns [None] exactly when the index is at or above
    the size of the file table, and the entry stored at the index
    otherwise. *)
Theorem getFile_spec (r : GsymReader) (Index : Z) :
  0 <= Index ->
  (getFile r Index = None <-> Z.of_nat (length (Files r)) <= Index) /\
  (Index < Z.of_nat (length (Files r)) ->
   exists entry,
     nth_error (Files r) (Z.to_nat Index) = Some entry /\
     getFile r Index = Some entry).
Proof.
  intros Hnn. unfold getFile.
  destruct (Z.ltb_spec Index (Z.of_nat (length (Files r)))) as [Hlt|Hge].
  - assert (Hsome : nth_error (Files r) (Z.to_nat Index) <> None)
      by (apply nth_error_Some; lia).
    destruct (nth_error (Files r) (Z.to_nat Index)) as [entry|] eqn:Hnth;
      [|contradiction].
    split.
    + split; [discriminate | lia].
    + intros _. exists entry. split; reflexivity.
  - split; [tauto | lia].
Qed.

Lemma getFile_spec_witness :
  (getFile scenario_reader 1 = None <->
   Z.of_nat (length (Files scenario_reader)) <= 1) /\
  exists entry, nth_error (Files scenario_reader) 0 = Some entry /\
                getFile scenario_reader 0 = Some entry.
Proof.
  split.
  - exact (proj1 (getFile_spec scenario_reader 1 ltac:(lia))).
  - apply (proj2 (getFile_spec scenario_reader 0 ltac:(lia))).
    vm_compute. reflexivity.
Defined.

(** ** Going below the table *)

(** C5.  On an empty table, and on a sorted table for a query below its
    first entry, [getAddressOffsetIndex] steps back from [begin()] and
    returns the distance -1 as a [uint64_t], that is 2^64 - 1: no error is
    signalled and the value is not an index of the table. *)
Theorem getAddressOffsetIndex_unguarded (host : endianness) (T : AddrOffT)
    (r : GsymReader) (AddrOffset : Z) :
  let AIO := getAddrOffsets host T r in
  is_sorted AIO = true ->
  size_fits r = true ->
  AIO = [] \/ AddrOffset < nth 0 AIO 0 ->
  getAddressOffsetIndex host T r AddrOffset = 2 ^ 64 - 1 /\
  Z.of_nat (length AIO) <= getAddressOffsetIndex host T r AddrOffset /\
  addressForIndex host T r (getAddressOffsetIndex host T r AddrOffset) = None.
Proof.
  intros AIO Hs Hsize Hcase.
  rewrite (getAddressOffsetIndex_underflow host T r Hs AddrOffset Hcase).
  pose proof (table_length_fits host T r Hsize) as Hfit. fold AIO in Hfit.
  split; [reflexivity|]. split; [exact Hfit|].
  unfold addressForIndex. fold AIO.
  now replace (UINT64_MAX <? Z.of_nat (length AIO)) with false
    by (symmetry; apply Z.ltb_ge; lia).
Qed.

Lemma getAddressOffsetIndex_unguarded_witness :
  getAddressOffsetIndex little UInt8 (mk_reader 0 UInt8 []) 7 = 2 ^ 64 - 1 /\
  getAddressOffsetIndex little UInt8 dup_reader 3 = 2 ^ 64 - 1.
Proof.
  split.
  - apply (getAddressOffsetIndex_unguarded little UInt8 (mk_reader 0 UInt8 []) 7);
      [reflexivity | reflexivity | left; reflexivity].
  - apply (getAddressOffsetIndex_unguarded little UInt8 dup_reader 3);
      [reflexivity | reflexivity | right; vm_compute; reflexivity].
Defined.

(** ** Failures of the address lookup *)

(** C4.  The lookup of an address below the base address fails with
    [BelowRange]; the lookup of an address at or above the base address
    fails with [NotFound] when the table is empty or when the offset of the
    address from the base address is below the first entry. *)
Theorem getAddressIndex_errors (host : endianness) (r : GsymReader)
    (Addr : Z) :
  let AIO := getAddrOffsets host (AddrOffSize (Hdr r)) r in
  (Addr < BaseAddress (Hdr r) ->
   getAddressIndex host r Addr = inl BelowRange) /\
  (BaseAddress (Hdr r) <= Addr ->
   AIO = [] \/ Addr - BaseAddress (Hdr r) < nth 0 AIO 0 ->
   getAddressIndex host r Addr = inl NotFound).
Proof.
  intros AIO. unfold getAddressIndex. fold AIO. split.
  - intros Hlt.
    now replace (Addr <? BaseAddress (Hdr r)) with true
      by (symmetry; apply Z.ltb_lt; lia).
  - intros Hge Hcase.
    replace (Addr <? BaseAddress (Hdr r)) with false
      by (symmetry; apply Z.ltb_ge; lia).
    destruct Hcase as [Hnil|Hlt].
    + now rewrite Hnil.
    + destruct AIO as [|first_offset rest]; [reflexivity|].
      cbn [nth] in Hlt.
      now replace (Addr - BaseAddress (Hdr r) <? first_offset) with true
        by (symmetry; apply Z.ltb_lt; lia).
Qed.

Lemma getAddressIndex_errors_witness :
  getAddressIndex little scenario_reader 4095 = inl BelowRange /\
  getAddressIndex little dup_reader 3 = inl NotFound /\
  getAddressIndex little (mk_reader 16 UInt32 []) 16 = inl NotFound.
Proof.
  split; [|split].
  - apply (getAddressIndex_errors little scenario_reader 4095).
    vm_compute. reflexivity.
  - apply (getAddressIndex_errors little dup_reader 3).
    + vm_compute. discriminate.
    + right. vm_compute. reflexivity.
  - apply (getAddressIndex_errors little (mk_reader 16 UInt32 []) 16).
    + vm_compute. discriminate.
    + left. reflexivity.
Defined.

(** ** First occurrences *)

Lemma first_index_of_spec v A i :
  (i < length A)%nat -> nth i A 0 = v ->
  (first_index_of v A <= i)%nat /\
  nth (first_index_of v A) A 0 = v /\
  (forall j, (j < first_index_of v A)%nat -> nth j A 0 <> v).
Proof.
  revert i. induction A as [|x rest IH]; intros i Hi Hv.
  - simpl in Hi. lia.
  - cbn [first_index_of]. destruct (Z.eqb_spec x v) as [Heq|Hne].
    + split; [lia|]. split; [exact Heq|]. intros j Hj. lia.
    + destruct i as [|i']; [cbn [nth] in Hv; contradiction|].
      cbn [nth] in Hv. simpl in Hi.
      destruct (IH i' ltac:(lia) Hv) as (Hle & Hat & Hmin).
      split; [lia|]. split; [exact Hat|].
      intros [|j'] Hj; [exact Hne|]. apply Hmin. lia.
Qed.

Lemma first_index_of_strict A i :
  is_strictly_sorted A = true -> (i < length A)%nat ->
  first_index_of (nth i A 0) A = i.
Proof.
  intros Hs Hi. apply first_index_of_unique; [exact Hi | reflexivity |].
  intros j Hj. pose proof (is_strictly_sorted_nth A j i Hs ltac:(lia)). lia.
Qed.

(** ** Addresses of a table that fits in 64 bits *)

Section Lookup.

Variables (host : endianness) (r : GsymReader).

Let T := AddrOffSize (Hdr r).
Let AIO := getAddrOffsets host T r.
Let base := BaseAddress (Hdr r).

Hypothesis Hsorted : is_sorted AIO = true.
Hypothesis Hsize : size_fits r = true.
Hypothesis Hfit : addresses_fit host T r = true.

Lemma addresses_fit_nth k :
  (k < length AIO)%nat ->
  0 <= base /\ 0 <= nth k AIO 0 /\ nth k AIO 0 + base <= UINT64_MAX.
Proof.
  intros Hk. unfold addresses_fit in Hfit. fold AIO base in Hfit.
  apply andb_prop in Hfit. destruct Hfit as [Hb Hall].
  apply Z.leb_le in Hb. rewrite forallb_forall in Hall.
  specialize (Hall (nth k AIO 0) (nth_In AIO 0 Hk)).
  apply Z.leb_le in Hall.
  pose proof (getAddrOffsets_nonneg host T r k) as Hnn. fold AIO in Hnn.
  lia.
Qed.

(** [getAddress] on such a table is the exact sum. *)
Lemma getAddress_Some Index a :
  0 <= Index -> getAddress host r Index = Some a ->
  (Z.to_nat Index < length AIO)%nat /\
  a = base + nth (Z.to_nat Index) AIO 0.
Proof.
  intros Hnn. unfold getAddress, addressForIndex. fold T AIO base.
  destruct (Z.ltb_spec Index (Z.of_nat (length AIO))) as [Hlt|Hge];
    [|discriminate].
  intros Ha. injection Ha as <-.
  assert (Hk : (Z.to_nat Index < length AIO)%nat) by lia.
  split; [exact Hk|].
  destruct (addresses_fit_nth _ Hk) as (Hb & Ho & Hs).
  unfold deref. rewrite wrap64_small; lia.
Qed.

Lemma getAddress_None Index :
  0 <= Index -> getAddress host r Index = None ->
  (length AIO <= Z.to_nat Index)%nat.
Proof.
  intros Hnn. unfold getAddress, addressForIndex. fold T AIO base.
  destruct (Z.ltb_spec Index (Z.of_nat (length AIO))) as [Hlt|Hge];
    [discriminate | lia].
Qed.

(** At or above the first address the lookup reaches the search. *)
Lemma getAddressIndex_found Addr :
  (0 < length AIO)%nat ->
  nth 0 AIO 0 <= Addr - base ->
  getAddressIndex host r Addr =
  inr (getAddressOffsetIndex host T r (Addr - base)).
Proof.
  intros Hne Hfirst.
  destruct (addresses_fit_nth O Hne) as (Hb & Ho & _).
  unfold getAddressIndex. fold T AIO base.
  replace (Addr <? base) with false by (symmetry; apply Z.ltb_ge; lia).
  destruct AIO as [|first_offset rest] eqn:HA; [simpl in Hne; lia|].
  cbn [nth] in Hfirst.
  now replace (Addr - base <? first_offset) with false
    by (symmetry; apply Z.ltb_ge; lia).
Qed.

(** The lookup of an address of the table. *)
Lemma getAddressIndex_exact i :
  (i < length AIO)%nat ->
  getAddressIndex host r (base + nth i AIO 0) =
  inr (Z.of_nat (first_index_of (nth i AIO 0) AIO)).
Proof.
  intros Hi.
  pose proof (is_sorted_nth AIO O i Hsorted ltac:(lia)) as H0.
  rewrite getAddressIndex_found by lia. f_equal.
  replace (base + nth i AIO 0 - base) with (nth i AIO 0) by lia.
  apply (getAddressOffsetIndex_exact host T r Hsorted Hsize i Hi).
Qed.

(** A table address is the exact sum again when read back. *)
Lemma getAddress_nth k :
  (k < length AIO)%nat ->
  getAddress host r (Z.of_nat k) = Some (base + nth k AIO 0).
Proof.
  intros Hk. unfold getAddress, addressForIndex. fold T AIO base.
  replace (Z.of_nat k <? Z.of_nat (length AIO)) with true
    by (symmetry; apply Z.ltb_lt; lia).
  destruct (addresses_fit_nth _ Hk) as (Hb & Ho & Hs).
  unfold deref. rewrite Nat2Z.id, wrap64_small by lia. f_equal. lia.
Qed.

(** The lookup of an address of the table, or of one between it and the
    next address. *)
Lemma getAddressIndex_from i Addr :
  (i < length AIO)%nat ->
  base + nth i AIO 0 <= Addr ->
  ((S i < length AIO)%nat -> Addr < base + nth (S i) AIO 0) ->
  getAddressIndex host r Addr =
  inr (if Addr =? base + nth i AIO 0
       then Z.of_nat (first_index_of (nth i AIO 0) AIO)
       else Z.of_nat i).
Proof.
  intros Hi Hlo Hhi.
  pose proof (is_sorted_nth AIO O i Hsorted ltac:(lia)) as H0.
  rewrite getAddressIndex_found by lia. f_equal.
  destruct (Z.eqb_spec Addr (base + nth i AIO 0)) as [Heq|Hne].
  - replace (Addr - base) with (nth i AIO 0) by lia.
    apply (getAddressOffsetIndex_exact host T r Hsorted Hsize i Hi).
  - destruct (Nat.lt_ge_cases (S i) (length AIO)) as [Hs|Hs].
    + apply (getAddressOffsetIndex_between host T r Hsorted Hsize i);
        [exact Hs|]. specialize (Hhi Hs). fold AIO. lia.
    + apply (getAddressOffsetIndex_above_last host T r Hsorted Hsize i);
        fold AIO; lia.
Qed.

End Lookup.

(** ** Equal neighbouring entries *)

(** C1 (as the code has it).  On a sorted table in which entry [i] and
    its successor hold the same offset, the search for that offset returns
    the smallest index holding it: an index [k <= i] with the queried
    offset, below which no entry holds it.  (The equality of the two
    neighbours is the situation of the claim; the proof does not need
    it.) *)
Theorem getAddressOffsetIndex_tie_first (host : endianness) (T : AddrOffT)
    (r : GsymReader) (i : nat) :
  let AIO := getAddrOffsets host T r in
  is_sorted AIO = true ->
  size_fits r = true ->
  (S i < length AIO)%nat ->
  nth i AIO 0 = nth (S i) AIO 0 ->
  exists k,
    getAddressOffsetIndex host T r (nth i AIO 0) = Z.of_nat k /\
    (k <= i)%nat /\
    nth k AIO 0 = nth i AIO 0 /\
    (forall j, (j < length AIO)%nat -> nth j AIO 0 = nth i AIO 0 ->
               (k <= j)%nat).
Proof.
  intros AIO Hs Hsize Hi _.
  exists (first_index_of (nth i AIO 0) AIO).
  destruct (first_index_of_spec (nth i AIO 0) AIO i ltac:(lia) eq_refl)
    as (Hle & Hat & Hmin).
  split; [|split; [exact Hle | split; [exact Hat|]]].
  - apply (getAddressOffsetIndex_exact host T r Hs Hsize i). fold AIO. lia.
  - intros j _ Hj.
    destruct (Nat.le_gt_cases (first_index_of (nth i AIO 0) AIO) j)
      as [|Hlt]; [assumption|].
    exfalso. exact (Hmin j Hlt Hj).
Qed.

Lemma getAddressOffsetIndex_tie_first_witness :
  exists k,
    getAddressOffsetIndex little UInt8 dup_reader 5 = Z.of_nat k /\
    (k <= 0)%nat.
Proof.
  destruct (getAddressOffsetIndex_tie_first little UInt8 dup_reader 0
              eq_refl eq_refl ltac:(vm_compute; lia) eq_refl)
    as (k & Hk & Hle & _).
  exists k. split; [exact Hk | exact Hle].
Defined.

(** C1 (as stated) fails: in the sorted table 5, 5, 7 the last entry
    holding 5 has index 1, the search for 5 returns index 0. *)
Lemma getAddressOffsetIndex_tie_last_counterexample :
  let AIO := getAddrOffsets little UInt8 dup_reader in
  AIO = [5; 5; 7] /\
  is_sorted AIO = true /\
  last_index_of 5 AIO = Some 1%nat /\
  getAddressOffsetIndex little UInt8 dup_reader 5 = 0 /\
  getAddressOffsetIndex little UInt8 dup_reader 5 <> 1.
Proof.
  vm_compute. repeat split; try reflexivity. discriminate.
Qed.

(** ** The interval covered by an entry *)

(** C2 (as the code has it).  On a sorted table all of whose addresses fit
    in 64 bits: an address [a] with [address(i) <= a < address(i+1)], and
    an address [a >= address(last)] for the last index, resolves to [i]
    (to [last]) when [a] lies strictly above the address of the entry, and
    to the smallest index sharing the offset of the entry when [a] is its
    address.  On a strictly increasing table that index is the entry's
    own. *)
Theorem getAddressIndex_interval (host : endianness) (r : GsymReader) :
  let AIO := getAddrOffsets host (AddrOffSize (Hdr r)) r in
  is_sorted AIO = true ->
  size_fits r = true ->
  addresses_fit host (AddrOffSize (Hdr r)) r = true ->
  (forall i lo hi a,
     0 <= i ->
     getAddress host r i = Some lo ->
     getAddress host r (i + 1) = Some hi ->
     lo <= a < hi ->
     getAddressIndex host r a =
     inr (if a =? lo then first_sharing host r i else i)) /\
  (forall last lo a,
     0 <= last ->
     getAddress host r last = Some lo ->
     getAddress host r (last + 1) = None ->
     lo <= a ->
     getAddressIndex host r a =
     inr (if a =? lo then first_sharing host r last else last)) /\
  (is_strictly_sorted AIO = true ->
   forall i, 0 <= i < Z.of_nat (length AIO) -> first_sharing host r i = i).
Proof.
  intros AIO Hs Hsize Hfit. split; [|split].
  - intros i lo hi a Hi Hlo Hhi Ha.
    destruct (getAddress_Some host r Hfit i lo Hi Hlo) as [Hk ->].
    destruct (getAddress_Some host r Hfit (i + 1) hi ltac:(lia) Hhi)
      as [Hk' ->].
    replace (Z.to_nat (i + 1)) with (S (Z.to_nat i)) in * by lia.
    rewrite (getAddressIndex_from host r Hs Hsize Hfit (Z.to_nat i) a Hk);
      [|lia|intros _; lia].
    unfold first_sharing, deref. rewrite Z2Nat.id by lia. reflexivity.
  - intros last lo a Hi Hlo Hnone Ha.
    destruct (getAddress_Some host r Hfit last lo Hi Hlo) as [Hk ->].
    pose proof (getAddress_None host r (last + 1) ltac:(lia) Hnone) as Hend.
    replace (Z.to_nat (last + 1)) with (S (Z.to_nat last)) in * by lia.
    rewrite (getAddressIndex_from host r Hs Hsize Hfit (Z.to_nat last) a Hk);
      [|lia|intros Hs'; lia].
    unfold first_sharing, deref. rewrite Z2Nat.id by lia. reflexivity.
  - intros Hstrict i Hi. unfold first_sharing, deref. fold AIO.
    rewrite first_index_of_strict by (assumption || lia). lia.
Qed.

Lemma getAddressIndex_interval_witness :
  getAddressIndex little scenario_reader 4114 = inr 1 /\
  getAddressIndex little scenario_reader 70000 = inr 2.
Proof.
  destruct (getAddressIndex_interval little scenario_reader
              eq_refl eq_refl eq_refl) as (Hmid & Hlast & _).
  split.
  - exact (Hmid 1 4112 4176 4114 ltac:(lia) eq_refl eq_refl ltac:(lia)).
  - exact (Hlast 2 4176 70000 ltac:(lia) eq_refl eq_refl ltac:(lia)).
Defined.

(** C2 (as stated) fails.  In the sorted table 5, 5, 7 with base address 0
    the address 5 lies in the interval of index 1 and resolves to index 0.
    With base address 2^64 - 1 and offsets 0, 1 the address of the last
    index wraps around to 0, and the address 3 above it fails with
    [BelowRange]. *)
Lemma getAddressIndex_interval_counterexample :
  (is_sorted (getAddrOffsets little UInt8 dup_reader) = true /\
   getAddress little dup_reader 1 = Some 5 /\
   getAddress little dup_reader 2 = Some 7 /\
   getAddressIndex little dup_reader 5 = inr 0 /\
   getAddressIndex little dup_reader 5 <> inr 1) /\
  (is_sorted (getAddrOffsets little UInt8 wrap_reader) = true /\
   getAddress little wrap_reader 1 = Some 0 /\
   getAddress little wrap_reader 2 = None /\
   getAddressIndex little wrap_reader 3 = inl BelowRange).
Proof.
  vm_compute. repeat split; try reflexivity. discriminate.
Qed.

(** ** Looking up the address of an entry *)

(** C3 (as the code has it).  On a sorted table all of whose addresses fit
    in 64 bits, looking up the address of entry [i] returns the smallest
    index whose address is that of entry [i]; it is at most [i], and it is
    [i] on a strictly increasing table. *)
Theorem getAddressIndex_round_trip (host : endianness) (r : GsymReader)
    (i a : Z) :
  let AIO := getAddrOffsets host (AddrOffSize (Hdr r)) r in
  is_sorted AIO = true ->
  size_fits r = true ->
  addresses_fit host (AddrOffSize (Hdr r)) r = true ->
  0 <= i ->
  getAddress host r i = Some a ->
  getAddressIndex host r a = inr (first_sharing host r i) /\
  0 <= first_sharing host r i <= i /\
  getAddress host r (first_sharing host r i) = Some a /\
  (forall j, 0 <= j < first_sharing host r i ->
             getAddress host r j <> Some a) /\
  (is_strictly_sorted AIO = true -> getAddressIndex host r a = inr i).
Proof.
  intros AIO Hs Hsize Hfit Hi Ha.
  destruct (getAddress_Some host r Hfit i a Hi Ha) as [Hk Hsum].
  fold AIO in Hk, Hsum.
  destruct (first_index_of_spec (nth (Z.to_nat i) AIO 0) AIO (Z.to_nat i)
              Hk eq_refl) as (Hle & Hat & Hmin).
  assert (Hres : getAddressIndex host r a = inr (first_sharing host r i)).
  { rewrite Hsum.
    exact (getAddressIndex_exact host r Hs Hsize Hfit (Z.to_nat i) Hk). }
  unfold first_sharing, deref in Hres |- *. fold AIO in Hres |- *.
  set (k := first_index_of (nth (Z.to_nat i) AIO 0) AIO) in *.
  split; [exact Hres|]. split; [lia|]. split; [|split].
  - rewrite (getAddress_nth host r Hfit k) by (fold AIO; lia).
    fold AIO. rewrite Hat, Hsum. reflexivity.
  - intros j Hj Hja.
    destruct (getAddress_Some host r Hfit j a ltac:(lia) Hja) as [_ Hsum'].
    fold AIO in Hsum'.
    apply (Hmin (Z.to_nat j)); lia.
  - intros Hstrict. rewrite Hres. f_equal. unfold k.
    rewrite first_index_of_strict by assumption. lia.
Qed.

Lemma getAddressIndex_round_trip_witness :
  getAddressIndex little scenario_reader 4112 = inr 1.
Proof.
  destruct (getAddressIndex_round_trip little scenario_reader 1 4112
              eq_refl eq_refl eq_refl ltac:(lia) eq_refl)
    as (_ & _ & _ & _ & Hstrict).
  exact (Hstrict eq_refl).
Defined.

(** C3 (as stated) fails.  In the sorted table 5, 5, 7 with base address 0
    the address of index 1 is 5, which resolves to index 0.  With base
    address 2^64 - 1 and offsets 0, 1 the address of index 1 wraps around
    to 0, whose lookup fails with [BelowRange]. *)
Lemma getAddressIndex_round_trip_counterexample :
  (is_sorted (getAddrOffsets little UInt8 dup_reader) = true /\
   getAddress little dup_reader 1 = Some 5 /\
   getAddressIndex little dup_reader 5 = inr 0 /\
   getAddressIndex little dup_reader 5 <> inr 1) /\
  (is_sorted (getAddrOffsets little UInt8 wrap_reader) = true /\
   getAddress little wrap_reader 1 = Some 0 /\
   getAddressIndex little wrap_reader 0 = inl BelowRange).
Proof.
  vm_compute. repeat split; try reflexivity. discriminate.
Qed.

(** ** Strings *)

Lemma string_drop_append pre rest :
  string_drop (String.length pre) (String.append pre rest) = rest.
Proof. induction pre as [|c pre IH]; [reflexivity | exact IH]. Qed.

Lemma string_length_append s t :
  String.length (String.append s t) = (String.length s + String.length t)%nat.
Proof. induction s as [|c s IH]; simpl; [reflexivity | now rewrite IH]. Qed.

Lemma c_str_terminated s rest :
  nul_free s = true ->
  c_str (String.append s (String.String Ascii.zero rest)) = Some s.
Proof.
  induction s as [|c s IH]; intros Hs.
  - reflexivity.
  - cbn [nul_free] in Hs. apply andb_prop in Hs. destruct Hs as [Hc Hs].
    apply negb_true_iff in Hc.
    cbn [String.append c_str]. rewrite Hc, (IH Hs). reflexivity.
Qed.

Lemma c_str_unterminated s : nul_free s = true -> c_str s = None.
Proof.
  induction s as [|c s IH]; intros Hs.
  - reflexivity.
  - cbn [nul_free] in Hs. apply andb_prop in Hs. destruct Hs as [Hc Hs].
    apply negb_true_iff in Hc.
    cbn [c_str]. rewrite Hc, (IH Hs). reflexivity.
Qed.

(** C8.  [getString] returns the slice of the string table that starts at
    the offset and ends before the next NUL; it returns the empty string
    for an offset at or beyond the end of the table and for an offset
    after which the table holds no NUL; on the table NUL main NUL foo NUL
    the offsets 1, 6 and 0 give main, foo and the empty string. *)
Theorem getString_spec :
  (forall r pre s rest,
     Data (StrTab r) =
       String.append pre (String.append s (String.String Ascii.zero rest)) ->
     nul_free s = true ->
     getString r (Z.of_nat (String.length pre)) = s) /\
  (forall r Offset,
     Z.of_nat (String.length (Data (StrTab r))) <= Offset ->
     getString r Offset = String.EmptyString) /\
  (forall r Offset,
     0 <= Offset ->
     nul_free (string_drop (Z.to_nat Offset) (Data (StrTab r))) = true ->
     getString r Offset = String.EmptyString) /\
  Data (StrTab scenario_reader) = scenario_strings /\
  getString scenario_reader 1 = "main"%string /\
  getString scenario_reader 6 = "foo"%string /\
  getString scenario_reader 0 = String.EmptyString.
Proof.
  split; [|split; [|split]].
  - intros r pre s rest Hdata Hs. unfold getString, StringTable_at.
    rewrite Hdata, !string_length_append. cbn [String.length].
    replace (Z.of_nat (String.length pre) <?
             Z.of_nat (String.length pre +
                       (String.length s + S (String.length rest))))
      with true by (symmetry; apply Z.ltb_lt; lia).
    rewrite Nat2Z.id, string_drop_append, (c_str_terminated s rest Hs).
    reflexivity.
  - intros r Offset Hout. unfold getString, StringTable_at.
    now replace (Offset <? Z.of_nat (String.length (Data (StrTab r))))
      with false by (symmetry; apply Z.ltb_ge; lia).
  - intros r Offset _ Hfree. unfold getString, StringTable_at.
    rewrite (c_str_unterminated _ Hfree).
    now destruct (Offset <? Z.of_nat (String.length (Data (StrTab r)))).
  - repeat split; reflexivity.
Qed.

Lemma getString_spec_witness :
  getString scenario_reader 6 = "foo"%string /\
  getString scenario_reader 10 = String.EmptyString /\
  getString (mk_reader 0 UInt8 []) 0 = String.EmptyString.
Proof.
  destruct getString_spec as (Hslice & Hout & Hfree & _).
  split; [|split].
  - exact (Hslice scenario_reader
             (String.String Ascii.zero
                (String.append "main"%string
                   (String.String Ascii.zero String.EmptyString)))
             "foo"%string String.EmptyString eq_refl eq_refl).
  - apply Hout. vm_compute. discriminate.
  - apply Hfree; [lia | reflexivity].
Defined.

(** * Further properties of the search and of the typed view *)

(** ** [std::lower_bound] on an arbitrary table *)

(** Whatever the order of the table, the loop only moves [first] past an
    entry it found below [value], and only cuts the range at an entry it
    found not below [value]. *)
Lemma lower_bound_loop_any A value first count :
  (first + count <= length A)%nat ->
  (first = O \/ nth (first - 1) A 0 < value) ->
  ((first + count)%nat = length A \/ value <= nth (first + count) A 0) ->
  (first <= lower_bound_loop A value first count <= first + count)%nat /\
  (lower_bound_loop A value first count = O \/
   nth (lower_bound_loop A value first count - 1) A 0 < value) /\
  (lower_bound_loop A value first count = length A \/
   value <= nth (lower_bound_loop A value first count) A 0).
Proof.
  funelim (lower_bound_loop A value first count); intros Hlen Hlo Hhi.
  - rewrite Nat.add_0_r in Hhi. split; [lia | split; assumption].
  - clear Heqcall.
    pose proof (Nat.lt_div2 (S c) ltac:(lia)) as Hhalf.
    apply Z.ltb_lt in Heq.
    set (h := Nat.div2 (S c)) in *. clearbody h.
    destruct H as (Hr & Hb & Ha).
    + lia.
    + right. now replace (first + h + 1 - 1)%nat with (first + h)%nat by lia.
    + now replace (first + h + 1 + (S c - (h + 1)))%nat
        with (first + S c)%nat by lia.
    + split; [lia | split; assumption].
  - clear Heqcall.
    pose proof (Nat.lt_div2 (S c) ltac:(lia)) as Hhalf.
    apply Z.ltb_ge in Heq.
    set (h := Nat.div2 (S c)) in *. clearbody h.
    destruct H as (Hr & Hb & Ha).
    + lia.
    + exact Hlo.
    + right. exact Heq.
    + split; [lia | split; assumption].
Qed.

Lemma lower_bound_any A value :
  0 <= lower_bound A value <= Z.of_nat (length A) /\
  (lower_bound A value = 0 \/ deref A (lower_bound A value - 1) < value) /\
  (lower_bound A value = Z.of_nat (length A) \/
   value <= deref A (lower_bound A value)).
Proof.
  unfold lower_bound, deref.
  destruct (lower_bound_loop_any A value 0 (length A))
    as (Hr & Hb & Ha); [lia | now left | now left |].
  set (k := lower_bound_loop A value 0 (length A)) in *.
  split; [lia|]. split.
  - destruct Hb as [Hb|Hb]; [left; lia|].
    destruct k as [|k']; [left; reflexivity|]. right.
    replace (Z.to_nat (Z.of_nat (S k') - 1)) with (S k' - 1)%nat by lia.
    exact Hb.
  - destruct Ha as [Ha|Ha]; [left; lia|]. right.
    now rewrite Nat2Z.id.
Qed.

(** X2.  On any table, sorted or not, [getAddressOffsetIndex] returns
    either 2^64 - 1, and then the table is empty or the query is below its
    first entry, or an index of the table whose entry is not above the
    query. *)
Theorem getAddressOffsetIndex_any_table (host : endianness) (T : AddrOffT)
    (r : GsymReader) (AddrOffset : Z) :
  let AIO := getAddrOffsets host T r in
  size_fits r = true ->
  (getAddressOffsetIndex host T r AddrOffset = UINT64_MAX /\
   (AIO = [] \/ AddrOffset < nth 0 AIO 0)) \/
  (0 <= getAddressOffsetIndex host T r AddrOffset < Z.of_nat (length AIO) /\
   deref AIO (getAddressOffsetIndex host T r AddrOffset) <= AddrOffset).
Proof.
  intros AIO Hsize.
  pose proof (table_length_fits host T r Hsize) as Hfit. fold AIO in Hfit.
  destruct (lower_bound_any AIO AddrOffset) as (Hr & Hb & Ha).
  unfold getAddressOffsetIndex. fold AIO.
  set (lb := lower_bound AIO AddrOffset) in *.
  destruct ((lb =? Z.of_nat (length AIO)) || (AddrOffset <? deref AIO lb))
    eqn:Hstep.
  - destruct (Z.eq_dec lb 0) as [Hz|Hnz].
    + left. rewrite Hz. split; [reflexivity|].
      apply orb_prop in Hstep. destruct Hstep as [Hend|Hlt].
      * left. apply Z.eqb_eq in Hend.
        destruct AIO; [reflexivity | simpl in Hend; lia].
      * right. apply Z.ltb_lt in Hlt. rewrite Hz in Hlt. exact Hlt.
    + right. destruct Hb as [Hb|Hb]; [contradiction|].
      rewrite Z.sub_0_r, wrap64_small by lia. split; [lia|]. lia.
  - right. apply orb_false_elim in Hstep. destruct Hstep as [Hend Hlt].
    apply Z.eqb_neq in Hend. apply Z.ltb_ge in Hlt.
    rewrite Z.sub_0_r, wrap64_small by lia. split; [lia | exact Hlt].
Qed.

Lemma getAddressOffsetIndex_any_table_witness :
  (getAddressOffsetIndex little UInt8 (mk_reader 0 UInt8 [x09; x02; x05]%byte) 4
     = UINT64_MAX /\
   (getAddrOffsets little UInt8 (mk_reader 0 UInt8 [x09; x02; x05]%byte) = [] \/
    4 < nth 0 (getAddrOffsets little UInt8
                 (mk_reader 0 UInt8 [x09; x02; x05]%byte)) 0)) \/
  (0 <= getAddressOffsetIndex little UInt8
          (mk_reader 0 UInt8 [x09; x02; x05]%byte) 4 < 3 /\
   deref (getAddrOffsets little UInt8 (mk_reader 0 UInt8 [x09; x02; x05]%byte))
     (getAddressOffsetIndex little UInt8
        (mk_reader 0 UInt8 [x09; x02; x05]%byte) 4) <= 4).
Proof.
  exact (getAddressOffsetIndex_any_table little UInt8
           (mk_reader 0 UInt8 [x09; x02; x05]%byte) 4 eq_refl).
Defined.

(** ** The search on a sorted table, in general *)

(** Bring the table back under its local name after a lemma was applied. *)
Ltac fold_table AIO :=
  repeat match goal with
         | H : context [getAddrOffsets _ _ _] |- _ => progress fold AIO in H
         end;
  try fold AIO.

(** The two ways the search ends when the query is not below the first
    entry: on an exact hit [lower_bound] is the answer, otherwise the
    entry before it. *)
Lemma getAddressOffsetIndex_sorted_cases host T r AddrOffset :
  let AIO := getAddrOffsets host T r in
  let lb := lower_bound AIO AddrOffset in
  size_fits r = true ->
  (0 < length AIO)%nat ->
  nth 0 AIO 0 <= AddrOffset ->
  0 <= lb <= Z.of_nat (length AIO) ->
  (lb = 0 \/ deref AIO (lb - 1) < AddrOffset) ->
  (lb = Z.of_nat (length AIO) \/ AddrOffset <= deref AIO lb) ->
  (lb < Z.of_nat (length AIO) /\ deref AIO lb = AddrOffset /\
   getAddressOffsetIndex host T r AddrOffset = lb) \/
  (0 < lb /\ deref AIO (lb - 1) < AddrOffset /\
   (lb = Z.of_nat (length AIO) \/ AddrOffset < deref AIO lb) /\
   getAddressOffsetIndex host T r AddrOffset = lb - 1).
Proof.
  intros AIO lb Hsize Hne Hfirst Hr Hb Ha.
  pose proof (table_length_fits host T r Hsize) as Hfit. fold AIO in Hfit.
  unfold getAddressOffsetIndex. fold AIO lb.
  destruct (Z.eqb_spec lb (Z.of_nat (length AIO))) as [Hend|Hin]; cbn [orb].
  - right. destruct Hb as [Hb|Hb]; [lia|].
    rewrite Z.sub_0_r, wrap64_small by lia.
    repeat (split; [first [lia | exact Hb | now left]|]). reflexivity.
  - destruct Ha as [Ha|Ha]; [contradiction|].
    destruct (Z.ltb_spec AddrOffset (deref AIO lb)) as [Hlt|Hge].
    + right.
      assert (Hpos : 0 < lb).
      { destruct (Z.eq_dec lb 0) as [Hz|]; [|lia].
        rewrite Hz in Hlt. unfold deref in Hlt. simpl in Hlt. lia. }
      destruct Hb as [Hb|Hb]; [lia|].
      rewrite Z.sub_0_r, wrap64_small by lia.
      split; [exact Hpos|]. split; [exact Hb|]. split; [now right|reflexivity].
    + left. rewrite Z.sub_0_r, wrap64_small by lia.
      split; [lia|]. split; [lia | reflexivity].
Qed.

(** X1.  On a sorted table the index returned by [getAddressOffsetIndex]
    is an index of the table exactly when the table is not empty and the
    query is not below its first entry. *)
Theorem getAddressOffsetIndex_in_bounds_iff (host : endianness)
    (T : AddrOffT) (r : GsymReader) (AddrOffset : Z) :
  let AIO := getAddrOffsets host T r in
  is_sorted AIO = true ->
  size_fits r = true ->
  (getAddressOffsetIndex host T r AddrOffset < Z.of_nat (length AIO) <->
   AIO <> [] /\ nth 0 AIO 0 <= AddrOffset).
Proof.
  intros AIO Hs Hsize.
  pose proof (table_length_fits host T r Hsize) as Hfit. fold AIO in Hfit.
  split.
  - intros Hlt.
    assert (Hno : ~ (AIO = [] \/ AddrOffset < nth 0 AIO 0)).
    { intros Hcase.
      rewrite (getAddressOffsetIndex_underflow host T r Hs _ Hcase) in Hlt.
      lia. }
    split; [tauto | lia].
  - intros [Hne Hfirst].
    assert (Hlen : (0 < length AIO)%nat)
      by (destruct AIO; [contradiction | simpl; lia]).
    destruct (lower_bound_any AIO AddrOffset) as (Hr & Hb & Ha).
    destruct (getAddressOffsetIndex_sorted_cases host T r AddrOffset
                Hsize Hlen Hfirst Hr Hb Ha)
      as [(Hin & _ & ->)|(Hpos & _ & _ & ->)]; fold_table AIO; lia.
Qed.

Lemma getAddressOffsetIndex_in_bounds_iff_witness :
  getAddressOffsetIndex little UInt16 scenario_reader 17 < 3.
Proof.
  apply (getAddressOffsetIndex_in_bounds_iff little UInt16 scenario_reader 17
           eq_refl eq_refl).
  split; [discriminate | vm_compute; discriminate].
Defined.

(** X3.  On a sorted table, for a query not below the first entry, the
    index [k] returned is an index of the table; its entry is not above
    the query; every entry before it is below the query; every entry after
    it is not below the query, and above the query when entry [k] differs
    from the query. *)
Theorem getAddressOffsetIndex_predecessor (host : endianness)
    (T : AddrOffT) (r : GsymReader) (AddrOffset : Z) :
  let AIO := getAddrOffsets host T r in
  is_sorted AIO = true ->
  size_fits r = true ->
  AIO <> [] ->
  nth 0 AIO 0 <= AddrOffset ->
  exists k,
    getAddressOffsetIndex host T r AddrOffset = Z.of_nat k /\
    (k < length AIO)%nat /\
    nth k AIO 0 <= AddrOffset /\
    (forall j, (j < k)%nat -> nth j AIO 0 < AddrOffset) /\
    (forall j, (k < j < length AIO)%nat -> AddrOffset <= nth j AIO 0) /\
    (nth k AIO 0 <> AddrOffset ->
     forall j, (k < j < length AIO)%nat -> AddrOffset < nth j AIO 0).
Proof.
  intros AIO Hs Hsize Hne Hfirst.
  assert (Hlen : (0 < length AIO)%nat)
    by (destruct AIO; [contradiction | simpl; lia]).
  destruct (lower_bound_spec AIO AddrOffset Hs) as (Hr & Hlow & Hhigh).
  destruct (lower_bound_any AIO AddrOffset) as (_ & Hb & Ha).
  destruct (getAddressOffsetIndex_sorted_cases host T r AddrOffset
              Hsize Hlen Hfirst Hr Hb Ha)
    as [(Hin & Hhit & Hres)|(Hpos & Hprev & Hnext & Hres)]; fold_table AIO.
  - exists (Z.to_nat (lower_bound AIO AddrOffset)).
    unfold deref in Hhit.
    split; [rewrite Hres; lia|]. split; [lia|]. split; [lia|].
    split; [|split].
    + intros j Hj. apply Hlow. lia.
    + intros j Hj. apply Hhigh. lia.
    + intros Hdiff. contradiction.
  - exists (Z.to_nat (lower_bound AIO AddrOffset - 1)).
    unfold deref in Hprev, Hnext.
    split; [rewrite Hres; lia|]. split; [lia|]. split; [lia|].
    split; [|split].
    + intros j Hj. apply Hlow. lia.
    + intros j Hj. apply Hhigh. lia.
    + intros _ j Hj. destruct Hnext as [Hend|Hnext]; [lia|].
      pose proof (is_sorted_nth AIO (Z.to_nat (lower_bound AIO AddrOffset)) j
                    Hs ltac:(lia)).
      lia.
Qed.

Lemma getAddressOffsetIndex_predecessor_witness :
  exists k,
    getAddressOffsetIndex little UInt8 dup_reader 6 = Z.of_nat k /\
    (k < 3)%nat /\
    nth k (getAddrOffsets little UInt8 dup_reader) 0 <= 6.
Proof.
  destruct (getAddressOffsetIndex_predecessor little UInt8 dup_reader 6
              eq_refl eq_refl ltac:(discriminate)
              ltac:(vm_compute; discriminate))
    as (k & Hk & Hlt & Hle & _).
  exists k. split; [exact Hk|]. split; [exact Hlt | exact Hle].
Defined.

(** X4.  On a sorted table the search is monotone: of two queries not
    below the first entry, the larger one never resolves to a smaller
    index. *)
Theorem getAddressOffsetIndex_monotone (host : endianness) (T : AddrOffT)
    (r : GsymReader) (a b : Z) :
  let AIO := getAddrOffsets host T r in
  is_sorted AIO = true ->
  size_fits r = true ->
  AIO <> [] ->
  nth 0 AIO 0 <= a ->
  a <= b ->
  getAddressOffsetIndex host T r a <= getAddressOffsetIndex host T r b.
Proof.
  intros AIO Hs Hsize Hne Ha Hab.
  assert (Hlen : (0 < length AIO)%nat)
    by (destruct AIO; [contradiction | simpl; lia]).
  destruct (lower_bound_spec AIO a Hs) as (Hra & Hlowa & Hhigha).
  destruct (lower_bound_spec AIO b Hs) as (Hrb & Hlowb & Hhighb).
  assert (Hmono : lower_bound AIO a <= lower_bound AIO b).
  { destruct (Z.le_gt_cases (lower_bound AIO a) (lower_bound AIO b))
      as [|Hgt]; [assumption|].
    pose proof (Hlowa (Z.to_nat (lower_bound AIO b)) ltac:(lia)).
    pose proof (Hhighb (Z.to_nat (lower_bound AIO b)) ltac:(lia)).
    lia. }
  destruct (lower_bound_any AIO a) as (_ & Hba & Haa).
  destruct (lower_bound_any AIO b) as (_ & Hbb & Hab').
  destruct (getAddressOffsetIndex_sorted_cases host T r a
              Hsize Hlen Ha Hra Hba Haa)
    as [(Hina & Hhita & ->)|(_ & _ & _ & ->)];
  destruct (getAddressOffsetIndex_sorted_cases host T r b
              Hsize Hlen (Z.le_trans _ _ _ Ha Hab) Hrb Hbb Hab')
    as [(Hinb & Hhitb & ->)|(_ & _ & Hstep & ->)];
  fold_table AIO; try lia.
  (* exact hit for [a], step back for [b]: the hit lies before the place
     where [b] would go *)
  destruct (Z.eq_dec (lower_bound AIO a) (lower_bound AIO b)) as [Heq|];
    [|lia].
  exfalso. rewrite <- Heq in Hstep. destruct Hstep as [Hend|Hlt]; lia.
Qed.

Lemma getAddressOffsetIndex_monotone_witness :
  getAddressOffsetIndex little UInt16 scenario_reader 16 <=
  getAddressOffsetIndex little UInt16 scenario_reader 79.
Proof.
  apply (getAddressOffsetIndex_monotone little UInt16 scenario_reader 16 79
           eq_refl eq_refl);
    [discriminate | vm_compute; discriminate | lia].
Defined.

(** X5.  On a sorted table, searching for the offset stored at an index
    and reading the address at the index found gives back the address of
    the index started from, also when several entries share the offset;
    the index found is never above the one started from. *)
Theorem addressForIndex_of_found (host : endianness) (T : AddrOffT)
    (r : GsymReader) (Index : Z) :
  let AIO := getAddrOffsets host T r in
  is_sorted AIO = true ->
  size_fits r = true ->
  0 <= Index < Z.of_nat (length AIO) ->
  getAddressOffsetIndex host T r (deref AIO Index) <= Index /\
  addressForIndex host T r (getAddressOffsetIndex host T r (deref AIO Index)) =
  addressForIndex host T r Index.
Proof.
  intros AIO Hs Hsize Hi. unfold deref.
  assert (Hk : (Z.to_nat Index < length AIO)%nat) by lia.
  pose proof (getAddressOffsetIndex_exact host T r Hs Hsize _ Hk) as Hres.
  fold AIO in Hres. rewrite Hres.
  destruct (first_index_of_spec (nth (Z.to_nat Index) AIO 0) AIO
              (Z.to_nat Index) Hk eq_refl) as (Hle & Hat & _).
  set (k := first_index_of (nth (Z.to_nat Index) AIO 0) AIO) in *.
  split; [lia|].
  unfold addressForIndex. fold AIO.
  replace (Z.of_nat k <? Z.of_nat (length AIO)) with true
    by (symmetry; apply Z.ltb_lt; lia).
  replace (Index <? Z.of_nat (length AIO)) with true
    by (symmetry; apply Z.ltb_lt; lia).
  unfold deref. rewrite Nat2Z.id, Hat. reflexivity.
Qed.

Lemma addressForIndex_of_found_witness :
  addressForIndex little UInt8 dup_reader
    (getAddressOffsetIndex little UInt8 dup_reader
       (deref (getAddrOffsets little UInt8 dup_reader) 1)) =
  addressForIndex little UInt8 dup_reader 1.
Proof.
  exact (proj2 (addressForIndex_of_found little UInt8 dup_reader 1
                  eq_refl eq_refl
                  ltac:(vm_compute; split; [discriminate | reflexivity]))).
Defined.

(** ** The range of the element type *)

Lemma le_value_bound (bs : list byte) :
  le_value bs < 256 ^ Z.of_nat (length bs).
Proof.
  induction bs as [|b rest IH]; cbn [le_value length].
  - reflexivity.
  - rewrite Nat2Z.inj_succ, Z.pow_succ_r by lia.
    pose proof (Byte.to_N_bounded b) as Hb.
    pose proof (le_value_nonneg rest). lia.
Qed.

Lemma load_bound (host : endianness) (bs : list byte) :
  load host bs < 256 ^ Z.of_nat (length bs).
Proof.
  destruct host; cbn [load]; [apply le_value_bound|].
  rewrite <- (length_rev bs). apply le_value_bound.
Qed.

(** Every element of the view is a value of the element type. *)
Lemma getAddrOffsets_range host T r k :
  0 <= nth k (getAddrOffsets host T r) 0 < 256 ^ Z.of_nat (sizeof T).
Proof.
  split; [apply getAddrOffsets_nonneg|].
  destruct (Nat.lt_ge_cases k (length (getAddrOffsets host T r))) as [Hk|Hk].
  - pose proof (getAddrOffsets_nth host T r k Hk) as Hr.
    rewrite getAddrOffsets_length in Hk.
    destruct (read_at_in_bounds host T _ _ Hk) as [Hin Hs].
    rewrite Hs in Hr. injection Hr as <-.
    set (chunk := firstn (sizeof T) (skipn (k * sizeof T) (AddrOffsets r))).
    assert (Hlen : length chunk = sizeof T).
    { unfold chunk. rewrite length_firstn, length_skipn. lia. }
    rewrite <- Hlen. apply load_bound.
  - rewrite nth_overflow by exact Hk. apply Z.pow_pos_nonneg; lia.
Qed.

Lemma element_range_fits (T : AddrOffT) :
  256 ^ Z.of_nat (sizeof T) <= UINT64_MAX + 1.
Proof. destruct T; vm_compute; discriminate. Qed.

(** X6.  On any non-empty table, a query above every entry resolves to
    the last index; this is the case of every query that does not fit the
    element type, that is, of every query of at least 256^sizeof(T). *)
Theorem getAddressOffsetIndex_saturates (host : endianness) (T : AddrOffT)
    (r : GsymReader) (AddrOffset : Z) :
  let AIO := getAddrOffsets host T r in
  size_fits r = true ->
  AIO <> [] ->
  (forall k, (k < length AIO)%nat -> nth k AIO 0 < AddrOffset) \/
  256 ^ Z.of_nat (sizeof T) <= AddrOffset ->
  getAddressOffsetIndex host T r AddrOffset = Z.of_nat (length AIO) - 1.
Proof.
  intros AIO Hsize Hne Habove.
  assert (Hall : forall k, (k < length AIO)%nat -> nth k AIO 0 < AddrOffset).
  { destruct Habove as [Hall|Hbig]; [exact Hall|].
    intros k _. pose proof (getAddrOffsets_range host T r k) as Hk.
    fold AIO in Hk. lia. }
  assert (Hlen : (0 < length AIO)%nat)
    by (destruct AIO; [contradiction | simpl; lia]).
  pose proof (table_length_fits host T r Hsize) as Hfit. fold AIO in Hfit.
  destruct (lower_bound_any AIO AddrOffset) as (Hr & _ & Ha).
  assert (Hend : lower_bound AIO AddrOffset = Z.of_nat (length AIO)).
  { destruct Ha as [Ha|Ha]; [exact Ha|].
    destruct (Z.eq_dec (lower_bound AIO AddrOffset) (Z.of_nat (length AIO)))
      as [|Hin]; [assumption|].
    specialize (Hall (Z.to_nat (lower_bound AIO AddrOffset)) ltac:(lia)).
    unfold deref in Ha. lia. }
  unfold getAddressOffsetIndex. fold AIO.
  rewrite Hend, Z.eqb_refl. cbn [orb].
  rewrite Z.sub_0_r. apply wrap64_small. lia.
Qed.

Lemma getAddressOffsetIndex_saturates_witness :
  getAddressOffsetIndex little UInt8 dup_reader 300 = 3 - 1.
Proof.
  apply (getAddressOffsetIndex_saturates little UInt8 dup_reader 300 eq_refl);
    [discriminate | right; vm_compute; discriminate].
Defined.

(** X7.  Two indices of the table have the same address exactly when they
    hold the same offset: the 64-bit wrap-around of the sum never makes two
    different offsets meet, whatever the base address. *)
Theorem addressForIndex_same_address (host : endianness) (T : AddrOffT)
    (r : GsymReader) (i j : Z) :
  let AIO := getAddrOffsets host T r in
  0 <= i < Z.of_nat (length AIO) ->
  0 <= j < Z.of_nat (length AIO) ->
  (addressForIndex host T r i = addressForIndex host T r j <->
   deref AIO i = deref AIO j).
Proof.
  intros AIO Hi Hj. unfold addressForIndex. fold AIO.
  replace (i <? Z.of_nat (length AIO)) with true
    by (symmetry; apply Z.ltb_lt; lia).
  replace (j <? Z.of_nat (length AIO)) with true
    by (symmetry; apply Z.ltb_lt; lia).
  split; [|intros ->; reflexivity].
  intros Heq. injection Heq as Heq. unfold deref in *.
  pose proof (getAddrOffsets_range host T r (Z.to_nat i)) as Hri.
  pose proof (getAddrOffsets_range host T r (Z.to_nat j)) as Hrj.
  pose proof (element_range_fits T) as HT.
  fold AIO in Hri, Hrj.
  set (x := nth (Z.to_nat i) AIO 0) in *.
  set (y := nth (Z.to_nat j) AIO 0) in *.
  set (b := BaseAddress (Hdr r)) in *.
  unfold wrap64 in Heq.
  assert (HM : 0 < UINT64_MAX + 1) by (vm_compute; reflexivity).
  pose proof (Z.div_mod (x + b) (UINT64_MAX + 1) ltac:(lia)) as Hx.
  pose proof (Z.div_mod (y + b) (UINT64_MAX + 1) ltac:(lia)) as Hy.
  rewrite Heq in Hx.
  set (M := UINT64_MAX + 1) in *.
  set (q1 := (x + b) / M) in *. set (q2 := (y + b) / M) in *.
  assert (Hq : x - y = M * (q1 - q2)) by lia.
  assert (q1 - q2 = 0) by nia.
  lia.
Qed.

Lemma addressForIndex_same_address_witness :
  addressForIndex little UInt8 wrap_reader 0 =
  addressForIndex little UInt8 wrap_reader 1 <->
  deref (getAddrOffsets little UInt8 wrap_reader) 0 =
  deref (getAddrOffsets little UInt8 wrap_reader) 1.
Proof.
  apply (addressForIndex_same_address little UInt8 wrap_reader 0 1);
    vm_compute; (split; [discriminate | reflexivity]).
Defined.

(** ** One-byte tables *)

Lemma firstn_1_skipn (l : list byte) (k : nat) (d : byte) :
  (k < length l)%nat -> firstn 1 (skipn k l) = [nth k l d].
Proof.
  revert k. induction l as [|b rest IH]; intros k Hk.
  - simpl in Hk. lia.
  - destruct k as [|k']; [reflexivity|].
    cbn [skipn nth]. apply IH. simpl in Hk. lia.
Qed.

(** X8.  At element type [uint8_t] the view is the byte array itself, one
    element per byte, on a host of either byte order. *)
Theorem getAddrOffsets_UInt8 (host : endianness) (r : GsymReader) :
  getAddrOffsets host UInt8 r =
  map (fun b => Z.of_N (Byte.to_N b)) (AddrOffsets r).
Proof.
  apply (nth_ext _ _ 0 (Z.of_N (Byte.to_N x00))).
  - rewrite getAddrOffsets_length, length_map. cbn [sizeof].
    apply Nat.div_1_r.
  - intros k Hk.
    pose proof (getAddrOffsets_nth host UInt8 r k Hk) as Hr.
    rewrite getAddrOffsets_length in Hk.
    destruct (read_at_in_bounds host UInt8 _ _ Hk) as [_ Hs].
    change (sizeof UInt8) with 1%nat in Hk, Hs.
    rewrite Nat.div_1_r in Hk. rewrite Nat.mul_1_r in Hs.
    rewrite (firstn_1_skipn _ _ x00 Hk) in Hs.
    rewrite Hs in Hr. injection Hr as <-.
    rewrite (map_nth (fun b => Z.of_N (Byte.to_N b))).
    destruct host; cbn [load rev app le_value]; lia.
Qed.

(** ** The address found for a query *)

Lemma addresses_fit_at host T r k :
  addresses_fit host T r = true ->
  (k < length (getAddrOffsets host T r))%nat ->
  addressForIndex host T r (Z.of_nat k) =
  Some (nth k (getAddrOffsets host T r) 0 + BaseAddress (Hdr r)).
Proof.
  intros Hfit Hk. unfold addresses_fit in Hfit.
  apply andb_prop in Hfit. destruct Hfit as [Hb Hall].
  apply Z.leb_le in Hb. rewrite forallb_forall in Hall.
  specialize (Hall _ (nth_In (getAddrOffsets host T r) 0 Hk)).
  apply Z.leb_le in Hall.
  pose proof (getAddrOffsets_nonneg host T r k) as Hnn.
  unfold addressForIndex.
  replace (Z.of_nat k <? Z.of_nat (length (getAddrOffsets host T r)))
    with true by (symmetry; apply Z.ltb_lt; lia).
  unfold deref. rewrite Nat2Z.id, wrap64_small by lia. reflexivity.
Qed.

(** X9.  On a sorted table whose addresses fit in 64 bits, for an address
    not below the first address of the table, the index found for the
    offset of the address holds an address that is not above the queried
    one, and every later index holds an address that is not below it. *)
Theorem addressForIndex_of_search (host : endianness) (T : AddrOffT)
    (r : GsymReader) (Addr : Z) :
  let AIO := getAddrOffsets host T r in
  let Index := getAddressOffsetIndex host T r (Addr - BaseAddress (Hdr r)) in
  is_sorted AIO = true ->
  size_fits r = true ->
  addresses_fit host T r = true ->
  AIO <> [] ->
  nth 0 AIO 0 + BaseAddress (Hdr r) <= Addr ->
  exists found,
    addressForIndex host T r Index = Some found /\
    found <= Addr /\
    (forall j later,
       Index < j -> addressForIndex host T r j = Some later ->
       Addr <= later).
Proof.
  intros AIO Index Hs Hsize Hfit Hne Hfirst.
  assert (Hlen : (0 < length AIO)%nat)
    by (destruct AIO; [contradiction | simpl; lia]).
  destruct (lower_bound_spec AIO (Addr - BaseAddress (Hdr r)) Hs)
    as (Hr & Hlow & Hhigh).
  destruct (lower_bound_any AIO (Addr - BaseAddress (Hdr r)))
    as (_ & Hb & Ha).
  assert (Hk : exists k, Index = Z.of_nat k /\ (k < length AIO)%nat /\
                         nth k AIO 0 <= Addr - BaseAddress (Hdr r) /\
                         Z.of_nat k + 1 >=
                         lower_bound AIO (Addr - BaseAddress (Hdr r))).
  { destruct (getAddressOffsetIndex_sorted_cases host T r
                (Addr - BaseAddress (Hdr r)) Hsize Hlen ltac:(fold AIO; lia)
                Hr Hb Ha)
      as [(Hin & Hhit & Hres)|(Hpos & Hprev & _ & Hres)];
      fold_table AIO; fold Index in Hres; unfold deref in *.
    - exists (Z.to_nat (lower_bound AIO (Addr - BaseAddress (Hdr r)))).
      repeat (split; [lia|]). lia.
    - exists (Z.to_nat (lower_bound AIO (Addr - BaseAddress (Hdr r)) - 1)).
      repeat (split; [lia|]). lia. }
  destruct Hk as (k & HI & Hkl & Hle & Hlb).
  exists (nth k AIO 0 + BaseAddress (Hdr r)).
  split; [|split].
  - rewrite HI. exact (addresses_fit_at host T r k Hfit Hkl).
  - lia.
  - intros j later Hj Hlater.
    assert (Hjn : 0 <= j) by (rewrite HI in Hj; lia).
    assert (Hjl : (Z.to_nat j < length AIO)%nat).
    { unfold addressForIndex in Hlater. fold AIO in Hlater.
      destruct (Z.ltb_spec j (Z.of_nat (length AIO))); [lia | discriminate]. }
    pose proof (addresses_fit_at host T r (Z.to_nat j) Hfit Hjl) as Hsum.
    rewrite Z2Nat.id in Hsum by lia. rewrite Hsum in Hlater.
    injection Hlater as <-. fold AIO.
    pose proof (Hhigh (Z.to_nat j) ltac:(lia)). lia.
Qed.

Lemma addressForIndex_of_search_witness :
  exists found,
    addressForIndex little UInt16 scenario_reader
      (getAddressOffsetIndex little UInt16 scenario_reader (4200 - 4096)) =
    Some found /\ found <= 4200.
Proof.
  destruct (addressForIndex_of_search little UInt16 scenario_reader 4200
              eq_refl eq_refl eq_refl ltac:(discriminate)
              ltac:(vm_compute; discriminate))
    as (found & Hfound & Hle & _).
  exists found. split; [exact Hfound | exact Hle].
Defined.

End gsym.
